(** * Amortization engine of investment-property (src/src/lib/mortgageCalculations.ts)

    The five exported functions of [mortgageCalculations.ts] are embedded
    once, over an interface [JSArith] for the JavaScript [number] operations
    they use.  The interface has two instances:
    - [xnum]: exact rational arithmetic extended with [NaN], [+Infinity] and
      [-Infinity] and the IEEE rules for them (no rounding, no signed zero);
      this is the model in which the spec's real-number statements are read;
    - [float]: Rocq's primitive IEEE-754 binary64 numbers, whose [+ - * /]
      and [<=] are exactly those of JavaScript; used where a statement is
      about bit-exact results of the program. *)

From Stdlib Require Import ZArith QArith Qround Lia Lqa String DecimalString List Sorted Floats.
Import ListNotations.

(** ** JavaScript numbers *)

Class JSArith (T : Type) := {
  lit : Z -> T;                  (* a numeric literal *)
  add : T -> T -> T;
  sub : T -> T -> T;
  mul : T -> T -> T;
  div : T -> T -> T;
  leb : T -> T -> bool;          (* a <= b *)
  max : T -> T -> T;             (* Math.max(a, b) *)
  truthy : T -> bool             (* the number as a JS condition *)
}.

(** [Math.pow] with a whole exponent and [Math.ceil]. *)
Class JSMath (T : Type) := {
  pow : T -> nat -> T;
  ceil : T -> T
}.

Declare Scope js_scope.
Delimit Scope js_scope with js.
Infix "+" := add : js_scope.
Infix "-" := sub : js_scope.
Infix "*" := mul : js_scope.
Infix "/" := div : js_scope.
Infix "<=?" := leb (at level 70) : js_scope.

(** *** Exact numbers with IEEE special values *)

Inductive xnum :=
| Fin (q : Q)
| NaN
| PInf
| NInf.

Definition xneg (x : xnum) : xnum :=
  match x with
  | Fin a => Fin (- a)
  | NaN => NaN
  | PInf => NInf
  | NInf => PInf
  end.

Definition xadd (x y : xnum) : xnum :=
  match x, y with
  | Fin a, Fin b => Fin (a + b)
  | NaN, _ | _, NaN => NaN
  | PInf, NInf | NInf, PInf => NaN
  | PInf, _ | _, PInf => PInf
  | NInf, _ | _, NInf => NInf
  end.

Definition xsub (x y : xnum) : xnum := xadd x (xneg y).

(** An infinity of sign [pos] times the finite [b]. *)
Definition inf_times (pos : bool) (b : Q) : xnum :=
  if Qeq_bool b 0 then NaN
  else if negb (Qle_bool b 0) then (if pos then PInf else NInf)
  else (if pos then NInf else PInf).

Definition xmul (x y : xnum) : xnum :=
  match x, y with
  | Fin a, Fin b => Fin (a * b)
  | NaN, _ | _, NaN => NaN
  | PInf, Fin b | Fin b, PInf => inf_times true b
  | NInf, Fin b | Fin b, NInf => inf_times false b
  | PInf, PInf | NInf, NInf => PInf
  | PInf, NInf | NInf, PInf => NInf
  end.

(** Division; a zero divisor is taken as [+0]. *)
Definition xdiv (x y : xnum) : xnum :=
  match x, y with
  | NaN, _ | _, NaN => NaN
  | Fin a, Fin b =>
      if Qeq_bool b 0 then
        (if Qeq_bool a 0 then NaN else if negb (Qle_bool a 0) then PInf else NInf)
      else Fin (a / b)
  | Fin _, _ => Fin 0
  | PInf, Fin b => if Qeq_bool b 0 then PInf else inf_times true b
  | NInf, Fin b => if Qeq_bool b 0 then NInf else inf_times false b
  | _, _ => NaN
  end.

Definition xleb (x y : xnum) : bool :=
  match x, y with
  | NaN, _ | _, NaN => false
  | NInf, _ | _, PInf => true
  | PInf, _ | _, NInf => false
  | Fin a, Fin b => Qle_bool a b
  end.

Definition xmax (x y : xnum) : xnum :=
  match x, y with
  | NaN, _ | _, NaN => NaN
  | _, _ => if xleb x y then y else x
  end.

Definition xtruthy (x : xnum) : bool :=
  match x with
  | Fin a => negb (Qeq_bool a 0)
  | NaN => false
  | _ => true
  end.

Fixpoint xpow (x : xnum) (n : nat) : xnum :=
  match n with
  | O => Fin 1
  | S m => xmul x (xpow x m)
  end.

Definition xceil (x : xnum) : xnum :=
  match x with
  | Fin a => Fin (inject_Z (Qceiling a))
  | _ => x
  end.

#[global] Instance xnum_arith : JSArith xnum := {
  lit z := Fin (inject_Z z);
  add := xadd; sub := xsub; mul := xmul; div := xdiv;
  leb := xleb; max := xmax; truthy := xtruthy
}.

#[global] Instance xnum_math : JSMath xnum := { pow := xpow; ceil := xceil }.

(** *** IEEE-754 binary64 *)

Definition float_of_Z (z : Z) : float :=
  if (z <? 0)%Z then PrimFloat.opp (PrimFloat.of_uint63 (Uint63.of_Z (- z)))
  else PrimFloat.of_uint63 (Uint63.of_Z z).

(** [Math.max]: NaN wins, and [+0] is larger than [-0]. *)
Definition float_max (a b : float) : float :=
  if PrimFloat.is_nan a || PrimFloat.is_nan b then PrimFloat.nan
  else if PrimFloat.ltb a b then b
  else if PrimFloat.ltb b a then a
  else if PrimFloat.is_zero a && PrimFloat.get_sign a then b
  else a.

#[global] Instance float_arith : JSArith float := {
  lit := float_of_Z;
  add := PrimFloat.add; sub := PrimFloat.sub;
  mul := PrimFloat.mul; div := PrimFloat.div;
  leb := PrimFloat.leb; max := float_max;
  truthy a := negb (PrimFloat.eqb a 0%float) && PrimFloat.eqb a a
}.

(** ** The engine *)

(** [MortgageParams]; [termMonths] is a whole number of months (the form
    passes [DEFAULT_TERM_MONTHS = 360]) and [extraPayment] is optional. *)
Record MortgageParams (T : Type) := {
  principal : T;
  annualRate : T;
  termMonths : nat;
  extraPayment : option T
}.
Arguments principal {T}.
Arguments annualRate {T}.
Arguments termMonths {T}.
Arguments extraPayment {T}.

Definition params {T} (p a : T) (n : nat) : MortgageParams T :=
  {| principal := p; annualRate := a; termMonths := n; extraPayment := None |}.

(** One row of the array built by [calculateAmortizationSchedule]. *)
Module Entry.
Record t (T : Type) := mk {
  month : nat;
  payment : T;
  principal : T;
  interest : T;
  remainingBalance : T
}.
Arguments mk {T}.
Arguments month {T}.
Arguments payment {T}.
Arguments principal {T}.
Arguments interest {T}.
Arguments remainingBalance {T}.
End Entry.

Section Engine.
Context {T : Type} `{JSArith T}.
Local Open Scope js_scope.

(** [calculateMonthlyPayment] (lines 8-18). *)
Definition calculateMonthlyPayment `{JSMath T} (p : MortgageParams T) : T :=
  let monthlyRate := annualRate p / lit 12 / lit 100 in
  let numerator :=
    principal p * monthlyRate * pow (lit 1 + monthlyRate) (termMonths p) in
  let denominator := pow (lit 1 + monthlyRate) (termMonths p) - lit 1 in
  numerator / denominator.

(** The [for] loop of [calculateTotalInterest]; [fuel] is the number of
    iterations left ([termMonths - month + 1]). *)
Fixpoint total_interest_loop (monthlyRate monthlyPayment : T) (fuel : nat)
    (balance totalInterest : T) : T :=
  match fuel with
  | O => totalInterest
  | S fuel' =>
      let interestPayment := balance * monthlyRate in
      let principalPayment := monthlyPayment - interestPayment in
      let totalInterest' := totalInterest + interestPayment in
      let balance' := balance - principalPayment in
      if balance' <=? lit 0 then totalInterest'
      else total_interest_loop monthlyRate monthlyPayment fuel' balance' totalInterest'
  end.

(** [calculateTotalInterest] (lines 20-41). *)
Definition calculateTotalInterest (p : MortgageParams T) (monthlyPayment : T) : T :=
  let monthlyRate := annualRate p / lit 100 / lit 12 in
  total_interest_loop monthlyRate monthlyPayment (termMonths p) (principal p) (lit 0).

(** [calculateRecastPayment] (lines 43-55): [extraPayment || 0]. *)
Definition calculateRecastPayment `{JSMath T} (p : MortgageParams T) : T :=
  let extra :=
    match extraPayment p with
    | Some e => if truthy e then e else lit 0
    | None => lit 0
    end in
  let newPrincipal := principal p - extra in
  calculateMonthlyPayment (params newPrincipal (annualRate p) (termMonths p)).

(** [calculateBreakEvenMonths] (lines 57-64). *)
Definition calculateBreakEvenMonths `{JSMath T}
    (refinanceCosts currentMonthlyPayment newMonthlyPayment : T) : T :=
  let monthlySavings := currentMonthlyPayment - newMonthlyPayment in
  ceil (refinanceCosts / monthlySavings).

(** The [for] loop of [calculateAmortizationSchedule]: each iteration pushes
    its row, then leaves the loop when the balance is [<= 0]. *)
Fixpoint schedule_loop (monthlyRate monthlyPayment : T) (fuel month : nat)
    (balance : T) : list (Entry.t T) :=
  match fuel with
  | O => []
  | S fuel' =>
      let interest := balance * monthlyRate in
      let principalPayment := monthlyPayment - interest in
      let balance' := balance - principalPayment in
      Entry.mk month monthlyPayment principalPayment interest (max (lit 0) balance')
        :: (if balance' <=? lit 0 then []
            else schedule_loop monthlyRate monthlyPayment fuel' (S month) balance')
  end.

(** [calculateAmortizationSchedule] (lines 66-99). *)
Definition calculateAmortizationSchedule (p : MortgageParams T) (monthlyPayment : T)
    : list (Entry.t T) :=
  let monthlyRate := annualRate p / lit 12 / lit 100 in
  schedule_loop monthlyRate monthlyPayment (termMonths p) 1 (principal p).

(** [schedule.reduce((s, e) => s + e.f, 0)] for a field [f] of the rows. *)
Definition sum_field (f : Entry.t T -> T) (s : list (Entry.t T)) : T :=
  fold_left (fun acc e => acc + f e) s (lit 0).

End Engine.

(** ** The caller: [calculateMortgageOptions]

    The component [MortgageCalculator], copied into [mortgageCalculations.ts]
    from line 100 on, validates its form with [formSchema] (lines 138-190)
    and calls the engine from [calculateMortgageOptions] (lines 384-503). *)

(** The five fees of [refinanceClosingCosts]. *)
Record ClosingCosts (T : Type) := {
  titleInsurance : T;
  appraisalFee : T;
  originationFee : T;
  recordingFees : T;
  otherFees : T
}.
Arguments titleInsurance {T}.
Arguments appraisalFee {T}.
Arguments originationFee {T}.
Arguments recordingFees {T}.
Arguments otherFees {T}.

(** [FormSchema]: [remainingTerm] is a whole number of months, as the schema
    requires ([int]); [refinanceClosingCosts] may be missing from saved
    data, which the code reads with [?.]. *)
Record FormSchema (T : Type) := {
  currentBalance : T;
  currentRate : T;
  monthlyPayment : T;
  remainingTerm : nat;
  propertyValue : T;
  newRate : T;
  lumpSum : T;
  plannedStayYears : T;
  refinanceClosingCosts : option (ClosingCosts T);
  recastFee : T;
  alternativeInvestmentReturn : T
}.
Arguments currentBalance {T}.
Arguments currentRate {T}.
Arguments monthlyPayment {T}.
Arguments remainingTerm {T}.
Arguments propertyValue {T}.
Arguments newRate {T}.
Arguments lumpSum {T}.
Arguments plannedStayYears {T}.
Arguments refinanceClosingCosts {T}.
Arguments recastFee {T}.
Arguments alternativeInvestmentReturn {T}.

(** One option of [ResultsType] (lines 217-235), with the numbers before
    [currencyFormatter.format] turns them into strings. *)
Module Loan.
Record t (T : Type) := mk {
  monthlyPayment : T;
  totalInterest : T;
  schedule : list (Entry.t T)
}.
Arguments mk {T}.
Arguments monthlyPayment {T}.
Arguments totalInterest {T}.
Arguments schedule {T}.
End Loan.

(** The object passed to [setResults]; [breakEven] and [closingCosts]
    belong to the [refinance] option. *)
Module Results.
Record t (T : Type) := mk {
  current : Loan.t T;
  refinance : Loan.t T;
  breakEven : T;
  closingCosts : T;
  recast : Loan.t T
}.
Arguments mk {T}.
Arguments current {T}.
Arguments refinance {T}.
Arguments breakEven {T}.
Arguments closingCosts {T}.
Arguments recast {T}.
End Results.

Section Caller.
Context {T : Type} `{JSArith T} `{JSMath T}.
Local Open Scope js_scope.

(** [x || 0]. *)
Definition or0 (x : T) : T := if truthy x then x else lit 0.

(** [REFINANCE_CLOSING_COSTS_PERCENTAGE = 0.03] (line 193), written [3 / 100]:
    the correctly rounded quotient is the double nearest to 0.03, the value
    of the literal. *)
Definition REFINANCE_CLOSING_COSTS_PERCENTAGE : T := lit 3 / lit 100.

(** [values.refinanceClosingCosts?.f || 0]. *)
Definition fee (f : ClosingCosts T -> T) (c : option (ClosingCosts T)) : T :=
  match c with
  | Some c => or0 (f c)
  | None => lit 0
  end.

(** [totalClosingCosts] of [calculateMortgageOptions]. *)
Definition totalClosingCosts (c : option (ClosingCosts T)) : T :=
  fee titleInsurance c + fee appraisalFee c + fee originationFee c
  + fee recordingFees c + fee otherFees c.

(** [calculateMortgageOptions (values)]: the first component is what it
    passes to [setResults] ([None] for [null]), the second the value it
    writes into the form's [monthlyPayment] with [form.setValue], if any. *)
Definition calculateMortgageOptions (values : FormSchema T)
    : option (Results.t T) * option T :=
  if negb (truthy (currentBalance values)) || negb (truthy (currentRate values))
     || Nat.eqb (remainingTerm values) 0
  then (None, None)
  else
    let current := params (currentBalance values) (currentRate values) (remainingTerm values) in
    let currentMonthlyPayment := calculateMonthlyPayment current in
    let setMonthlyPayment :=
      if truthy (monthlyPayment values) then None else Some currentMonthlyPayment in
    let currentTotalInterest := calculateTotalInterest current currentMonthlyPayment in
    let total := totalClosingCosts (refinanceClosingCosts values) in
    let refinanceClosingCosts' :=
      if truthy total then total
      else currentBalance values * REFINANCE_CLOSING_COSTS_PERCENTAGE in
    let refinancePrincipal := currentBalance values - or0 (lumpSum values) in
    let refinance := params refinancePrincipal (newRate values) (remainingTerm values) in
    let refinanceMonthlyPayment := calculateMonthlyPayment refinance in
    let refinanceTotalInterest := calculateTotalInterest refinance refinanceMonthlyPayment in
    let breakEvenMonths :=
      calculateBreakEvenMonths refinanceClosingCosts' currentMonthlyPayment
        refinanceMonthlyPayment in
    let recastMonthlyPayment :=
      calculateRecastPayment
        {| principal := currentBalance values; annualRate := currentRate values;
           termMonths := remainingTerm values; extraPayment := Some (lumpSum values) |} in
    let recast :=
      params (currentBalance values - lumpSum values) (currentRate values) (remainingTerm values) in
    let recastTotalInterest := calculateTotalInterest recast recastMonthlyPayment in
    let currentSchedule := calculateAmortizationSchedule current currentMonthlyPayment in
    let refinanceSchedule := calculateAmortizationSchedule refinance refinanceMonthlyPayment in
    let recastSchedule := calculateAmortizationSchedule recast recastMonthlyPayment in
    (Some (Results.mk
             (Loan.mk currentMonthlyPayment currentTotalInterest currentSchedule)
             (Loan.mk refinanceMonthlyPayment refinanceTotalInterest refinanceSchedule)
             breakEvenMonths refinanceClosingCosts'
             (Loan.mk recastMonthlyPayment recastTotalInterest recastSchedule)),
     setMonthlyPayment).


(** [values.monthlyPayment = currentMonthlyPayment] (line 405). *)
Definition assign_monthlyPayment (values : FormSchema T) (x : T) : FormSchema T :=
  {| currentBalance := currentBalance values; currentRate := currentRate values;
     monthlyPayment := x; remainingTerm := remainingTerm values;
     propertyValue := propertyValue values; newRate := newRate values;
     lumpSum := lumpSum values; plannedStayYears := plannedStayYears values;
     refinanceClosingCosts := refinanceClosingCosts values; recastFee := recastFee values;
     alternativeInvestmentReturn := alternativeInvestmentReturn values |}.

(** The "Total closing costs" of the break-even card (lines 1242-1244):
    [Object.values(refinanceClosingCosts || {}).reduce((sum, fee) => sum + (fee || 0), 0)],
    the values in the order of the schema's keys. *)
Definition breakEvenCardClosingCosts (c : option (ClosingCosts T)) : T :=
  match c with
  | None => lit 0
  | Some c =>
      fold_left (fun sum f => sum + or0 f)
        [titleInsurance c; appraisalFee c; originationFee c; recordingFees c; otherFees c]
        (lit 0)
  end.

End Caller.

(** ** Scenarios

    The scenario handlers of the component (lines 317-382) and the delete
    guard of [ScenarioTabs] (src/src/components/ScenarioTabs.tsx, lines
    140-144).  [D] is the type of the form values a scenario stores; the
    state is the [scenarios] array, [activeScenarioId] and the values shown
    by the form; the results that [calculateMortgageOptions] recomputes after
    a delete or a change are not part of it. *)

Module Scenario.
Record t (D : Type) := mk {
  id : string;
  name : string;
  data : D
}.
Arguments mk {D}.
Arguments id {D}.
Arguments name {D}.
Arguments data {D}.
End Scenario.

Record ScenarioState (D : Type) := {
  scenarios : list (Scenario.t D);
  activeScenarioId : string;
  formValues : D
}.
Arguments scenarios {D}.
Arguments activeScenarioId {D}.
Arguments formValues {D}.

Section Scenarios.
Context {D : Type}.

Definition has_id (i : string) (s : Scenario.t D) : bool := String.eqb (Scenario.id s) i.

(** [scenarios.map((s) => s.id === activeScenarioId ? { ...s, data: form.getValues() } : s)]. *)
Definition save_active (st : ScenarioState D) : list (Scenario.t D) :=
  map (fun s => if has_id (activeScenarioId st) s
                then Scenario.mk (Scenario.id s) (Scenario.name s) (formValues st)
                else s)
      (scenarios st).

(** [`Scenario ${n}`]. *)
Definition scenario_name (n : nat) : string :=
  String.append "Scenario " (NilZero.string_of_uint (Nat.to_uint n)).

(** [handleScenarioAdd (cloneFrom)]; [newId] is the value of [uuidv4()] and
    [defaults] the literal object of lines 320-332. *)
Definition handleScenarioAdd (newId : string) (defaults : D) (cloneFrom : option string)
    (st : ScenarioState D) : ScenarioState D :=
  let baseData :=
    match cloneFrom with
    | Some c =>
        if String.eqb c "" then defaults
        else match find (has_id c) (scenarios st) with
             | Some s => Scenario.data s
             | None => formValues st
             end
    | None => defaults
    end in
  let newScenario :=
    Scenario.mk newId (scenario_name (length (scenarios st) + 1)) baseData in
  {| scenarios := save_active st ++ [newScenario];
     activeScenarioId := Scenario.id newScenario;
     formValues := Scenario.data newScenario |}.

(** [handleScenarioDelete (id)]; [None] is the [TypeError] thrown when
    [updatedScenarios[0]] is [undefined]. *)
Definition handleScenarioDelete (i : string) (st : ScenarioState D)
    : option (ScenarioState D) :=
  let updatedScenarios := filter (fun s => negb (has_id i s)) (scenarios st) in
  if String.eqb i (activeScenarioId st) then
    match updatedScenarios with
    | [] => None
    | newActiveScenario :: _ =>
        Some {| scenarios := updatedScenarios;
                activeScenarioId := Scenario.id newActiveScenario;
                formValues := Scenario.data newActiveScenario |}
    end
  else
    Some {| scenarios := updatedScenarios;
            activeScenarioId := activeScenarioId st;
            formValues := formValues st |}.

(** [handleDelete] of [ScenarioTabs]: [if (scenarios.length > 1) onScenarioDelete(id)]. *)
Definition tabsHandleDelete (i : string) (st : ScenarioState D) : option (ScenarioState D) :=
  if Nat.ltb 1 (length (scenarios st)) then handleScenarioDelete i st else Some st.

(** [handleScenarioChange (id)]. *)
Definition handleScenarioChange (i : string) (st : ScenarioState D) : ScenarioState D :=
  match find (has_id i) (scenarios st) with
  | Some scenario =>
      {| scenarios := save_active st;
         activeScenarioId := i;
         formValues := Scenario.data scenario |}
  | None => st
  end.

(** [handleScenarioRename (id, newName)]. *)
Definition handleScenarioRename (i newName : string) (st : ScenarioState D) : ScenarioState D :=
  {| scenarios := map (fun s => if has_id i s
                                then Scenario.mk (Scenario.id s) newName (Scenario.data s)
                                else s)
                      (scenarios st);
     activeScenarioId := activeScenarioId st;
     formValues := formValues st |}.

End Scenarios.

(** ** The spec's formulas *)

(** Whole powers of a rational. *)
Fixpoint qpow (x : Q) (n : nat) : Q :=
  match n with
  | O => 1
  | S m => x * qpow x m
  end.

Definition spec_monthlyRate (annualRatePercent : Q) : Q := annualRatePercent / 100 / 12.

(** The payment formula of the spec (4.1), in exact arithmetic. *)
Definition spec_payment (principal annualRatePercent : Q) (termMonths : nat) : Q :=
  let r := spec_monthlyRate annualRatePercent in
  principal * r * qpow (1 + r) termMonths / (qpow (1 + r) termMonths - 1).

(** ** Auxiliary definitions for the proofs *)

(** [a < b] on numbers: false as soon as one side is NaN. *)
Definition xltb (x y : xnum) : bool :=
  match x, y with
  | NaN, _ | _, NaN => false
  | _, _ => negb (xleb y x)
  end.

(** The payment the code computes, at the monthly rate [r]. *)
Definition qpayment (P r : Q) (n : nat) : Q :=
  P * r * qpow (1 + r) n / (qpow (1 + r) n - 1).

(** The balance after the last iteration of the schedule loop, in exact
    arithmetic (the value the loop leaves in [balance]). *)
Fixpoint final_balance (r M : Q) (fuel : nat) (b : Q) : Q :=
  match fuel with
  | O => b
  | S fuel' =>
      let b' := b + - (M + - (b * r)) in
      if Qle_bool b' (inject_Z 0) then b' else final_balance r M fuel' b'
  end.

(** Closing-cost fees as the schema admits them: finite and [>= 0]
    (or the whole object missing). *)
Definition fees_nonneg (c : option (ClosingCosts xnum)) : Prop :=
  match c with
  | None => True
  | Some cc =>
      Forall (fun f => exists q, f = Fin q /\ 0 <= q)
        [titleInsurance cc; appraisalFee cc; originationFee cc; recordingFees cc; otherFees cc]
  end.

(** Two scenarios never share an id, and the active id is one of them. *)
Definition scenarios_ok {D : Type} (st : ScenarioState D) : Prop :=
  NoDup (map Scenario.id (scenarios st))
  /\ In (activeScenarioId st) (map Scenario.id (scenarios st)).

(** ** Lemmas about the model *)

Lemma qpow_compat (x y : Q) (n : nat) : x == y -> qpow x n == qpow y n.
Proof.
  intros Hxy. induction n as [|n IH]; cbn [qpow].
  - reflexivity.
  - rewrite IH, Hxy. reflexivity.
Qed.

Lemma qpow_one (n : nat) : qpow 1 n == 1.
Proof.
  induction n as [|n IH]; cbn [qpow]; [reflexivity|]. rewrite IH. reflexivity.
Qed.

Lemma xpow_fin (a : Q) (n : nat) : xpow (Fin a) n = Fin (qpow a n).
Proof.
  induction n as [|n IH]; simpl; [reflexivity|]. rewrite IH. reflexivity.
Qed.

Lemma Qeq_bool_false (a : Q) : ~ a == 0 -> Qeq_bool a 0 = false.
Proof.
  intros Ha. destruct (Qeq_bool a 0) eqn:E; [|reflexivity].
  apply Qeq_bool_eq in E. contradiction.
Qed.

Lemma xdiv_fin (a b : Q) : ~ b == 0 -> xdiv (Fin a) (Fin b) = Fin (a / b).
Proof. intros Hb. unfold xdiv. rewrite (Qeq_bool_false b Hb). reflexivity. Qed.

(** Dividing by 12 then 100 and by 100 then 12 give the same rational,
    even as a fraction before reduction. *)
Lemma Qdiv_12_100 (a : Q) : a / 12 / 100 = a / 100 / 12.
Proof.
  destruct a as [n d]. unfold Qdiv, Qmult, Qinv. simpl.
  f_equal. rewrite <- !Pos.mul_assoc. reflexivity.
Qed.

Lemma monthlyRate_exact (A : xnum) : (A / lit 12 / lit 100)%js = (A / lit 100 / lit 12)%js.
Proof.
  destruct A as [a| | |]; try reflexivity.
  cbn [div lit xnum_arith]. rewrite !xdiv_fin by (compute; discriminate).
  f_equal. apply Qdiv_12_100.
Qed.

(** The two loops agree row by row, for any arithmetic: the total of
    [calculateTotalInterest]'s loop is the running sum of the [interest]
    fields of [calculateAmortizationSchedule]'s loop at the same rate. *)
Lemma total_interest_loop_schedule {T} `{JSArith T} (r M : T) (fuel m : nat) (b acc : T) :
  total_interest_loop r M fuel b acc
  = fold_left (fun s e => (s + Entry.interest e)%js) (schedule_loop r M fuel m b) acc.
Proof.
  revert m b acc. induction fuel as [|fuel IH]; intros m b acc; simpl; [reflexivity|].
  destruct (leb (b - (M - b * r)) (lit 0))%js; simpl; [reflexivity|]. apply IH.
Qed.

(** In exact arithmetic the two functions agree on every input. *)
Lemma total_interest_consistent_exact (p : MortgageParams xnum) (M : xnum) :
  calculateTotalInterest p M = sum_field Entry.interest (calculateAmortizationSchedule p M).
Proof.
  unfold calculateTotalInterest, calculateAmortizationSchedule, sum_field.
  rewrite monthlyRate_exact. apply total_interest_loop_schedule.
Qed.

(** ** Claims and the lemmas they rest on *)

(** Simplification of the exact model on finite operands. *)
Ltac xsimpl :=
  cbn [annualRate principal termMonths extraPayment params
       lit add sub mul div leb max truthy pow ceil xnum_arith xnum_math
       xadd xsub xneg xmul xpow] in *.

(** C1 (counterexample): with annualRate 0, [calculateMonthlyPayment] on
    principal 12000 and 12 months does not return 1000 but NaN. *)
Lemma monthly_payment_zero_rate_counterexample :
  calculateMonthlyPayment (params (Fin 12000) (Fin 0) 12) = NaN
  /\ calculateMonthlyPayment (params (Fin 12000) (Fin 0) 12) <> Fin 1000.
Proof. split; vm_compute; [reflexivity | discriminate]. Qed.

(** C1 (amended): [calculateMonthlyPayment] has no zero-rate branch; for a
    zero annualRate and any finite principal and term it evaluates
    [principal * 0 * 1 / (1 - 1)], i.e. [0 / 0], which is NaN. *)
Theorem monthly_payment_zero_rate_is_NaN (P A : Q) (n : nat) :
  A == 0 -> calculateMonthlyPayment (params (Fin P) (Fin A) n) = NaN.
Proof.
  intros HA. unfold calculateMonthlyPayment. xsimpl.
  rewrite !xdiv_fin by (compute; discriminate). xsimpl.
  rewrite xpow_fin. xsimpl.
  set (r := A / inject_Z 12 / inject_Z 100).
  assert (Hr : r == 0) by (unfold r; rewrite HA; reflexivity).
  assert (Hp : qpow (inject_Z 1 + r) n == 1)
    by (rewrite (qpow_compat _ 1) by (rewrite Hr; reflexivity); apply qpow_one).
  unfold xdiv.
  replace (Qeq_bool (qpow (inject_Z 1 + r) n + - inject_Z 1) 0) with true
    by (symmetry; apply Qeq_bool_iff; rewrite Hp; reflexivity).
  replace (Qeq_bool (P * r * qpow (inject_Z 1 + r) n) 0) with true
    by (symmetry; apply Qeq_bool_iff; rewrite Hp, Hr; ring).
  reflexivity.
Qed.

Lemma monthly_payment_zero_rate_is_NaN_witness :
  0 == 0 /\ calculateMonthlyPayment (params (Fin 12000) (Fin 0) 12) = NaN.
Proof.
  split; [reflexivity|]. apply monthly_payment_zero_rate_is_NaN. reflexivity.
Defined.

(** C2 (code bug): in binary64, as the program runs, the total returned by
    [calculateTotalInterest] differs from the sum of the [interest] fields of
    [calculateAmortizationSchedule] on principal 300000, annualRate 6.5,
    360 months and payment 2000: the first divides the rate by 100 then 12,
    the second by 12 then 100, and the two monthly rates round differently. *)
Theorem total_interest_float_divergence :
  let p := params 300000%float 6.5%float 360 in
  (6.5 / 100 / 12)%float <> (6.5 / 12 / 100)%float
  /\ calculateTotalInterest p 2000%float
     <> sum_field Entry.interest (calculateAmortizationSchedule p 2000%float).
Proof.
  intros p. split; intros Heq.
  - assert (E : PrimFloat.eqb (6.5 / 100 / 12)%float (6.5 / 12 / 100)%float = false)
      by (vm_compute; reflexivity).
    rewrite Heq in E. vm_compute in E. discriminate.
  - assert (E : PrimFloat.eqb (calculateTotalInterest p 2000%float)
                  (sum_field Entry.interest (calculateAmortizationSchedule p 2000%float))
                = false) by (vm_compute; reflexivity).
    rewrite Heq in E. vm_compute in E. discriminate.
Qed.

(** C7: when the monthly saving [current - new] is positive,
    [calculateBreakEvenMonths] is the ceiling of [costs / saving], and zero
    costs give 0 months. *)
Theorem break_even_is_ceiling (c a b : Q) :
  0 < a - b ->
  calculateBreakEvenMonths (Fin c) (Fin a) (Fin b) = Fin (inject_Z (Qceiling (c / (a - b))))
  /\ (c == 0 -> calculateBreakEvenMonths (Fin c) (Fin a) (Fin b) = Fin 0).
Proof.
  intros Hs. unfold calculateBreakEvenMonths. xsimpl.
  rewrite xdiv_fin by (intros E; rewrite E in Hs; apply (Qlt_irrefl 0); exact Hs).
  cbn [xceil]. split; [reflexivity|].
  intros Hc. rewrite (Qceiling_comp _ 0); [reflexivity|].
  rewrite Hc. unfold Qdiv. apply Qmult_0_l.
Qed.

Lemma break_even_is_ceiling_witness :
  0 < 2000 - 1900
  /\ calculateBreakEvenMonths (Fin 10000) (Fin 2000) (Fin 1900) = Fin 100
  /\ calculateBreakEvenMonths (Fin 0) (Fin 2000) (Fin 1900) = Fin 0.
Proof.
  split; [reflexivity|]. split.
  - rewrite (proj1 (break_even_is_ceiling 10000 2000 1900 eq_refl)). reflexivity.
  - apply (proj2 (break_even_is_ceiling 0 2000 1900 eq_refl)). reflexivity.
Defined.

(** C10: with [termMonths = 0] both simulation loops run no iteration, for
    any values of the other arguments and any arithmetic: the total interest
    is the initial [0] and the schedule is empty; [calculateMonthlyPayment]
    at 0 months divides by [(1+r)^0 - 1 = 0] and returns no finite number. *)
Theorem zero_term_runs_no_iteration :
  (forall (T : Type) (J : JSArith T) (P A M : T) (E : option T),
     let p := {| principal := P; annualRate := A; termMonths := 0; extraPayment := E |} in
     calculateTotalInterest p M = lit 0 /\ calculateAmortizationSchedule p M = [])
  /\ (forall P A q : Q, calculateMonthlyPayment (params (Fin P) (Fin A) 0) <> Fin q).
Proof.
  split.
  - intros T J P A M E p. split; reflexivity.
  - intros P A q. unfold calculateMonthlyPayment. xsimpl.
    rewrite !xdiv_fin by (compute; discriminate). xsimpl.
    unfold xdiv.
    replace (Qeq_bool (1 + - inject_Z 1) 0) with true by reflexivity.
    destruct (Qeq_bool _ 0); [discriminate|].
    destruct (negb _); discriminate.
Qed.

(** [Math.max(0, b) <= 0] exactly when [b <= 0]. *)
Lemma max0_le_0 (b : xnum) : xleb (xmax (Fin 0) b) (Fin 0) = xleb b (Fin 0).
Proof.
  destruct b as [q| | |]; try reflexivity.
  unfold xmax, xleb. destruct (Qle_bool 0 q) eqn:E; [reflexivity|].
  symmetry. apply Qle_bool_iff. apply Qlt_le_weak, Qnot_le_lt.
  intros Hq. apply Qle_bool_iff in Hq. congruence.
Qed.

(** [Math.max(0, b)] is NaN or at least 0. *)
Lemma max0_nonneg (b : xnum) : xmax (Fin 0) b = NaN \/ xleb (Fin 0) (xmax (Fin 0) b) = true.
Proof.
  destruct b as [q| | |]; [|left; reflexivity|right; reflexivity|right; reflexivity].
  right. unfold xmax, xleb. destruct (Qle_bool 0 q) eqn:E; [exact E|reflexivity].
Qed.

(** The shape of the rows pushed by the loop of
    [calculateAmortizationSchedule]. *)
Lemma schedule_loop_shape (r M : xnum) (fuel m : nat) (b : xnum) :
  let s := schedule_loop r M fuel m b in
  (length s <= fuel)%nat
  /\ map Entry.month s = seq m (length s)
  /\ Forall (fun e => xleb (Entry.remainingBalance e) (Fin 0) = false) (removelast s)
  /\ ((length s < fuel)%nat ->
      exists s' e, s = s' ++ [e] /\ xleb (Entry.remainingBalance e) (Fin 0) = true).
Proof.
  revert m b. induction fuel as [|fuel IH]; intros m b; cbn zeta.
  - simpl. split; [lia|]. split; [reflexivity|]. split; [constructor|lia].
  - cbn [schedule_loop]. cbv zeta.
    set (b' := (b - (M - b * r))%js).
    destruct (leb b' (lit 0)) eqn:Eb.
    + cbn [length map seq removelast]. split; [lia|]. split; [reflexivity|].
      split; [constructor|].
      intros _. exists [], (Entry.mk m M (M - b * r)%js (b * r)%js (max (lit 0) b')).
      split; [reflexivity|]. cbn [Entry.remainingBalance max lit xnum_arith].
      rewrite max0_le_0. exact Eb.
    + destruct (IH (S m) b') as (Hlen & Hmon & Hpos & Hlast).
      set (t := schedule_loop r M fuel (S m) b') in *.
      cbn [length map seq]. split; [|split; [|split]].
      * lia.
      * rewrite Hmon. reflexivity.
      * destruct t as [|e t'] eqn:Et; [constructor|].
        change (removelast (Entry.mk m M (M - b * r)%js (b * r)%js (max (lit 0) b') :: e :: t'))
          with (Entry.mk m M (M - b * r)%js (b * r)%js (max (lit 0) b') :: removelast (e :: t')).
        constructor; [|exact Hpos].
        cbn [Entry.remainingBalance max lit xnum_arith]. rewrite max0_le_0. exact Eb.
      * intros Hlt. destruct Hlast as (s' & e & Hs & He); [lia|].
        exists (Entry.mk m M (M - b * r)%js (b * r)%js (max (lit 0) b') :: s'), e.
        rewrite Hs. split; [reflexivity|exact He].
Qed.

(** C5: [calculateAmortizationSchedule] returns a finite list of at most
    [termMonths] rows, numbered 1, 2, ...; every row but the last has a
    [remainingBalance] that is not [<= 0] (the loop goes on past it), and a
    list shorter than [termMonths] ends with the first row whose balance is
    [<= 0], after which nothing is appended. *)
Theorem schedule_stops_at_first_nonpositive (p : MortgageParams xnum) (M : xnum) :
  let s := calculateAmortizationSchedule p M in
  (length s <= termMonths p)%nat
  /\ map Entry.month s = seq 1 (length s)
  /\ Forall (fun e => xleb (Entry.remainingBalance e) (Fin 0) = false) (removelast s)
  /\ ((length s < termMonths p)%nat ->
      exists s' e, s = s' ++ [e] /\ xleb (Entry.remainingBalance e) (Fin 0) = true).
Proof. apply schedule_loop_shape. Qed.

Lemma schedule_loop_balance_not_negative (r M : xnum) (fuel m : nat) (b : xnum) :
  Forall (fun e => Entry.remainingBalance e = NaN
                   \/ xleb (Fin 0) (Entry.remainingBalance e) = true)
         (schedule_loop r M fuel m b).
Proof.
  revert m b. induction fuel as [|fuel IH]; intros m b; cbn [schedule_loop]; [constructor|].
  constructor.
  - apply max0_nonneg.
  - destruct (leb _ _); [constructor | apply IH].
Qed.

Lemma schedule_loop_balance_finite (r M : Q) (fuel m : nat) (b : Q) :
  Forall (fun e => exists q, Entry.remainingBalance e = Fin q /\ 0 <= q)
         (schedule_loop (Fin r) (Fin M) fuel m (Fin b)).
Proof.
  revert m b. induction fuel as [|fuel IH]; intros m b; cbn [schedule_loop]; [constructor|].
  xsimpl. constructor.
  - cbn [Entry.remainingBalance]. unfold xmax, xleb.
    match goal with |- context [Qle_bool ?z ?q] => destruct (Qle_bool z q) eqn:E end.
    + eexists. split; [reflexivity|]. apply Qle_bool_iff. exact E.
    + exists 0. split; [reflexivity|]. apply Qle_refl.
  - match goal with |- context [if ?c then _ else _] => destruct c end;
      [constructor | apply IH].
Qed.

(** C8 (counterexample): in the refinance path at a new rate of 0, the
    payment passed to [calculateAmortizationSchedule] is the NaN returned by
    [calculateMonthlyPayment]; all 360 rows then have a NaN
    [remainingBalance], and [NaN >= 0] is false. *)
Lemma schedule_balance_NaN_counterexample :
  let p := params (Fin 300000) (Fin 0) 360 in
  let s := calculateAmortizationSchedule p (calculateMonthlyPayment p) in
  length s = 360%nat
  /\ forallb (fun e => negb (xleb (Fin 0) (Entry.remainingBalance e))) s = true.
Proof. split; vm_compute; reflexivity. Qed.

(** C8 (amended): the [remainingBalance] of every row is [Math.max(0,
    balance)]: it is never negative, it is NaN when the balance is NaN, and
    when principal, annualRate and monthlyPayment are finite numbers every
    row's [remainingBalance] is a finite number [>= 0], whether or not the
    payment amortizes the loan. *)
Theorem schedule_balance_floored (p : MortgageParams xnum) (M : xnum) :
  Forall (fun e => Entry.remainingBalance e = NaN
                   \/ xleb (Fin 0) (Entry.remainingBalance e) = true)
         (calculateAmortizationSchedule p M)
  /\ forall (P A Mq : Q) (n : nat),
       Forall (fun e => exists q, Entry.remainingBalance e = Fin q /\ 0 <= q)
              (calculateAmortizationSchedule (params (Fin P) (Fin A) n) (Fin Mq)).
Proof.
  split.
  - apply schedule_loop_balance_not_negative.
  - intros P A Mq n. unfold calculateAmortizationSchedule. xsimpl.
    rewrite !xdiv_fin by (compute; discriminate).
    apply schedule_loop_balance_finite.
Qed.

(** ** Powers and the payment formula *)

Lemma qpow_ge_1 (x : Q) (n : nat) : 1 <= x -> 1 <= qpow x n.
Proof.
  intros Hx. induction n as [|n IH]; cbn [qpow]; [apply Qle_refl|]. nra.
Qed.

Lemma qpow_S (x : Q) (n : nat) : qpow x (S n) = x * qpow x n.
Proof. reflexivity. Qed.

Lemma qpow_lt_mono (x : Q) (a b : nat) : 1 < x -> (a < b)%nat -> qpow x a < qpow x b.
Proof.
  intros Hx Hab. induction Hab as [|b Hab IH].
  - rewrite qpow_S. pose proof (qpow_ge_1 x a (Qlt_le_weak _ _ Hx)). nra.
  - rewrite qpow_S. pose proof (qpow_ge_1 x b (Qlt_le_weak _ _ Hx)). nra.
Qed.

Lemma qpow_gt_1 (x : Q) (n : nat) : 1 < x -> (1 <= n)%nat -> 1 < qpow x n.
Proof.
  intros Hx Hn. exact (qpow_lt_mono x 0 n Hx Hn).
Qed.

Lemma rate_pos (A : Q) : 0 < A -> 0 < A / 12 / 100.
Proof.
  intros HA. unfold Qdiv. apply Qmult_lt_0_compat; [apply Qmult_lt_0_compat|];
    [exact HA | reflexivity | reflexivity].
Qed.

Lemma rate_nonneg (A : Q) : 0 <= A -> 0 <= A / 12 / 100.
Proof.
  intros HA. unfold Qdiv. apply Qmult_le_0_compat; [apply Qmult_le_0_compat|];
    [exact HA | discriminate | discriminate].
Qed.

Lemma monthly_payment_fin (P A : Q) (n : nat) :
  0 < A -> (1 <= n)%nat ->
  calculateMonthlyPayment (params (Fin P) (Fin A) n) = Fin (qpayment P (A / 12 / 100) n).
Proof.
  intros HA Hn. unfold calculateMonthlyPayment. xsimpl.
  rewrite !xdiv_fin by (compute; discriminate). xsimpl.
  rewrite xpow_fin. xsimpl.
  pose proof (rate_pos A HA) as Hr.
  pose proof (qpow_gt_1 (inject_Z 1 + A / inject_Z 12 / inject_Z 100) n
                ltac:(change (1 < 1 + A / 12 / 100); lra) Hn) as Hp.
  set (X := qpow (inject_Z 1 + A / inject_Z 12 / inject_Z 100) n) in *.
  rewrite xdiv_fin by (intros E; change (X + - 1 == 0) in E; lra).
  reflexivity.
Qed.

(** C4: for principal >= 0, annualRate > 0 and termMonths >= 1,
    [calculateMonthlyPayment] returns the spec's annuity formula
    [P r (1+r)^n / ((1+r)^n - 1)] with [r = annualRate / 100 / 12]
    (the code divides by 12 then by 100, the same rational). *)
Theorem monthly_payment_formula (P A : Q) (n : nat) :
  0 <= P -> 0 < A -> (1 <= n)%nat ->
  calculateMonthlyPayment (params (Fin P) (Fin A) n) = Fin (spec_payment P A n).
Proof.
  intros _ HA Hn. rewrite (monthly_payment_fin P A n HA Hn).
  unfold qpayment, spec_payment, spec_monthlyRate. rewrite Qdiv_12_100. reflexivity.
Qed.

Lemma monthly_payment_formula_witness :
  calculateMonthlyPayment (params (Fin 300000) (Fin 6) 360) = Fin (spec_payment 300000 6 360).
Proof.
  apply monthly_payment_formula; [discriminate | reflexivity | lia].
Defined.

(** The payment grows strictly with the principal at a positive rate. *)
Lemma qpayment_lt (P1 P2 r : Q) (n : nat) :
  0 < r -> (1 <= n)%nat -> P1 < P2 -> qpayment P1 r n < qpayment P2 r n.
Proof.
  intros Hr Hn HP. unfold qpayment, Qdiv.
  pose proof (qpow_gt_1 (1 + r) n ltac:(lra) Hn) as HX.
  apply Qmult_lt_compat_r; [apply Qinv_lt_0_compat; lra|].
  apply Qmult_lt_compat_r; [lra|].
  apply Qmult_lt_compat_r; [exact Hr | exact HP].
Qed.

(** C6: for annualRate > 0, termMonths >= 1 and extraPayment > 0,
    [calculateRecastPayment] is [calculateMonthlyPayment] on
    [principal - extraPayment] at the same rate and term, and it is strictly
    below [calculateMonthlyPayment] on the original principal. *)
Theorem recast_payment_lower (P A E : Q) (n : nat) :
  0 < A -> (1 <= n)%nat -> 0 < E ->
  let p := {| principal := Fin P; annualRate := Fin A; termMonths := n;
              extraPayment := Some (Fin E) |} in
  calculateRecastPayment p = calculateMonthlyPayment (params (Fin (P - E)) (Fin A) n)
  /\ exists a b, calculateRecastPayment p = Fin a /\ calculateMonthlyPayment p = Fin b /\ a < b.
Proof.
  intros HA Hn HE p.
  assert (Hrec : calculateRecastPayment p
                 = calculateMonthlyPayment (params (Fin (P - E)) (Fin A) n)).
  { unfold calculateRecastPayment, p. xsimpl. unfold xtruthy.
    rewrite Qeq_bool_false by (intros E0; rewrite E0 in HE; apply (Qlt_irrefl 0); exact HE).
    reflexivity. }
  split; [exact Hrec|].
  exists (qpayment (P - E) (A / 12 / 100) n), (qpayment P (A / 12 / 100) n).
  split; [rewrite Hrec; apply monthly_payment_fin; assumption|].
  split; [apply (monthly_payment_fin P A n HA Hn)|].
  apply qpayment_lt; [apply rate_pos; exact HA | exact Hn | lra].
Qed.

Lemma recast_payment_lower_witness :
  let p := {| principal := Fin 300000; annualRate := Fin 6; termMonths := 360;
              extraPayment := Some (Fin 50000) |} in
  calculateRecastPayment p = calculateMonthlyPayment (params (Fin (300000 - 50000)) (Fin 6) 360)
  /\ exists a b, calculateRecastPayment p = Fin a /\ calculateMonthlyPayment p = Fin b /\ a < b.
Proof. apply recast_payment_lower; [reflexivity | lia | reflexivity]. Defined.

Lemma xltb_fin (a b : Q) : a < b -> xltb (Fin a) (Fin b) = true.
Proof.
  intros Hab. unfold xltb, xleb. destruct (Qle_bool b a) eqn:E; [|reflexivity].
  apply Qle_bool_iff in E. exfalso. apply (Qlt_not_le a b Hab E).
Qed.

(** While the principal part of the payment is positive it stays positive
    (at a rate [>= 0] it grows by the factor [1 + r] each month), so every
    row's balance is below the previous one. *)
Lemma schedule_loop_decreasing (r M : Q) (fuel m : nat) (b : Q) :
  0 <= r -> b * r < M -> 0 < b ->
  let l := map Entry.remainingBalance (schedule_loop (Fin r) (Fin M) fuel m (Fin b)) in
  Sorted (fun x y => xltb y x = true) l
  /\ (forall x, hd_error l = Some x -> xltb x (Fin b) = true).
Proof.
  intros Hr. revert m b. induction fuel as [|fuel IH]; intros m b HM Hb; cbn zeta.
  - split; [constructor | discriminate].
  - cbn [schedule_loop]. xsimpl. cbn [map Entry.remainingBalance].
    set (b' := b + - (M + - (b * r))).
    assert (Hlt : b' < b) by (unfold b'; lra).
    assert (Hrow : xltb (xmax (Fin (inject_Z 0)) (Fin b')) (Fin b) = true).
    { unfold xmax. cbn [xleb]. destruct (Qle_bool (inject_Z 0) b'); apply xltb_fin; [exact Hlt | exact Hb]. }
    destruct (xleb (Fin b') (Fin (inject_Z 0))) eqn:Eb.
    + cbn [map]. split; [repeat constructor|].
      intros x Hx. injection Hx as <-. exact Hrow.
    + assert (Hpos : 0 < b').
      { cbn [xleb] in Eb. apply Qnot_le_lt. intros Hle.
        change (Qle b' (inject_Z 0)) in Hle. apply Qle_bool_iff in Hle. congruence. }
      assert (Hmax : xmax (Fin (inject_Z 0)) (Fin b') = Fin b').
      { unfold xmax. cbn [xleb].
        replace (Qle_bool (inject_Z 0) b') with true
          by (symmetry; apply Qle_bool_iff; apply Qlt_le_weak; exact Hpos).
        reflexivity. }
      assert (HM' : b' * r < M) by (unfold b'; nra).
      destruct (IH (S m) b' HM' Hpos) as [Hs Hhd].
      rewrite Hmax in *. split.
      * constructor; [exact Hs|].
        destruct (map Entry.remainingBalance (schedule_loop (Fin r) (Fin M) fuel (S m) (Fin b')))
          as [|x l'] eqn:El; constructor.
        apply Hhd. reflexivity.
      * intros x Hx. injection Hx as <-. apply xltb_fin. exact Hlt.
Qed.

(** C9: for principal > 0, annualRate >= 0, termMonths >= 1 and a payment
    above the first month's interest [principal * annualRate / 100 / 12],
    the [remainingBalance] of each row of [calculateAmortizationSchedule] is
    strictly below that of the row before. *)
Theorem schedule_balance_strictly_decreasing (P A Mq : Q) (n : nat) :
  0 < P -> 0 <= A -> (1 <= n)%nat -> P * (A / 100 / 12) < Mq ->
  Sorted (fun x y => xltb y x = true)
         (map Entry.remainingBalance
              (calculateAmortizationSchedule (params (Fin P) (Fin A) n) (Fin Mq))).
Proof.
  intros HP HA _ HM. rewrite <- Qdiv_12_100 in HM.
  unfold calculateAmortizationSchedule. xsimpl.
  rewrite !xdiv_fin by (compute; discriminate).
  exact (proj1 (schedule_loop_decreasing (A / 12 / 100) Mq n 1 P (rate_nonneg A HA) HM HP)).
Qed.

Lemma schedule_balance_strictly_decreasing_witness :
  Sorted (fun x y => xltb y x = true)
         (map Entry.remainingBalance
              (calculateAmortizationSchedule (params (Fin 12000) (Fin 6) 12) (Fin 1100))).
Proof.
  apply schedule_balance_strictly_decreasing; [reflexivity | discriminate | lia | reflexivity].
Defined.

(** ** Paying off the loan *)

(** The principal parts of the rows telescope: their sum is the starting
    balance minus the final one. *)
Lemma sum_principal_loop (r M : Q) (fuel m : nat) (b acc : Q) :
  exists t,
    fold_left (fun s e => (s + Entry.principal e)%js)
              (schedule_loop (Fin r) (Fin M) fuel m (Fin b)) (Fin acc) = Fin t
    /\ t == acc + b - final_balance r M fuel b.
Proof.
  revert m b acc. induction fuel as [|fuel IH]; intros m b acc.
  - exists acc. split; [reflexivity|]. cbn [final_balance]. ring.
  - cbn [schedule_loop final_balance]. xsimpl. cbn [xleb].
    destruct (Qle_bool (b + - (M + - (b * r))) (inject_Z 0)).
    + cbn [fold_left Entry.principal]. xsimpl.
      eexists. split; [reflexivity|]. ring.
    + cbn [fold_left Entry.principal]. xsimpl.
      destruct (IH (S m) (b + - (M + - (b * r))) (acc + (M + - (b * r))))
        as (t & Ht & Heq).
      exists t. split; [exact Ht|]. rewrite Heq. ring.
Qed.

Section Annuity.
Variables (P r : Q) (n : nat).
Hypotheses (HP : 0 < P) (Hr : 0 < r) (Hn : (1 <= n)%nat).

Let X := 1 + r.
Let D := qpow X n - 1.

Lemma annuity_D_pos : 0 < D.
Proof.
  unfold D, X. pose proof (qpow_gt_1 (1 + r) n ltac:(lra) Hn). lra.
Qed.

(** Balance after [k] months of the annuity payment. *)
Lemma annuity_step (k : nat) (b : Q) :
  b == P * (qpow X n - qpow X k) / D ->
  b + - (qpayment P r n + - (b * r)) == P * (qpow X n - qpow X (S k)) / D.
Proof.
  intros Hb. pose proof annuity_D_pos as HD.
  rewrite Hb. unfold qpayment. fold X. fold D. rewrite qpow_S.
  unfold X. field. intros E. unfold D, X in *. lra.
Qed.

Lemma annuity_final_balance (j k : nat) (b : Q) :
  (k + j = n)%nat ->
  b == P * (qpow X n - qpow X k) / D ->
  final_balance r (qpayment P r n) j b == 0.
Proof.
  pose proof annuity_D_pos as HD.
  revert k b. induction j as [|j IH]; intros k b Hkj Hb.
  - cbn [final_balance]. rewrite Hb. replace k with n by lia. unfold Qdiv. ring.
  - cbn [final_balance]. pose proof (annuity_step k b Hb) as Hb'.
    set (b' := b + - (qpayment P r n + - (b * r))) in *.
    destruct (Qle_bool b' (inject_Z 0)) eqn:E.
    + destruct j as [|j].
      * rewrite Hb'. replace (S k) with n by lia. unfold Qdiv. ring.
      * exfalso. apply Qle_bool_iff in E. rewrite Hb' in E.
        assert (Hlt : qpow X (S k) < qpow X n)
          by (apply qpow_lt_mono; [unfold X; lra | lia]).
        assert (Hpos : 0 < P * (qpow X n - qpow X (S k)) / D).
        { unfold Qdiv. apply Qmult_lt_0_compat; [apply Qmult_lt_0_compat|];
            [exact HP | lra | apply Qinv_lt_0_compat; exact HD]. }
        change (P * (qpow X n - qpow X (S k)) / D <= 0) in E. lra.
    + apply (IH (S k) b'); [lia | exact Hb'].
Qed.

(** Starting from the principal, the loop run for [n] months at the
    annuity payment ends at a zero balance. *)
Lemma annuity_pays_off : final_balance r (qpayment P r n) n P == 0.
Proof.
  pose proof annuity_D_pos as HD.
  apply (annuity_final_balance n 0 P); [lia|].
  change (qpow X 0) with 1. unfold D in *. field. intros E. lra.
Qed.

End Annuity.

(** C3: for principal > 0, annualRate in (0, 100) and termMonths >= 1, the
    schedule built with the payment of [calculateMonthlyPayment] pays the
    principal off: in exact arithmetic the sum of the [principal] fields of
    its rows is exactly [principal]. *)
Theorem schedule_pays_off_principal (P A : Q) (n : nat) :
  0 < P -> 0 < A -> A < 100 -> (1 <= n)%nat ->
  let p := params (Fin P) (Fin A) n in
  exists s,
    sum_field Entry.principal (calculateAmortizationSchedule p (calculateMonthlyPayment p)) = Fin s
    /\ s == P.
Proof.
  intros HP HA _ Hn p. unfold p. rewrite (monthly_payment_fin P A n HA Hn).
  unfold calculateAmortizationSchedule, sum_field. xsimpl.
  rewrite !xdiv_fin by (compute; discriminate).
  destruct (sum_principal_loop (A / 12 / 100) (qpayment P (A / 12 / 100) n) n 1 P 0)
    as (t & Ht & Heq).
  exists t. split; [exact Ht|].
  rewrite Heq, (annuity_pays_off P (A / 12 / 100) n HP (rate_pos A HA) Hn). ring.
Qed.

Lemma schedule_pays_off_principal_witness :
  let p := params (Fin 12000) (Fin 6) 12 in
  exists s,
    sum_field Entry.principal (calculateAmortizationSchedule p (calculateMonthlyPayment p)) = Fin s
    /\ s == 12000.
Proof.
  apply schedule_pays_off_principal; [reflexivity | reflexivity | reflexivity | lia].
Defined.

(** ** The rows of the schedule *)

Lemma Qplus_opp_0 (p : Q) : p + - inject_Z 0 = p.
Proof.
  destruct p as [a d]. unfold Qplus. simpl. rewrite Z.mul_1_r, Z.add_0_r, Pos.mul_1_r.
  reflexivity.
Qed.



(** ** Interest *)

Lemma Qle_bool_false_lt (b : Q) : Qle_bool b (inject_Z 0) = false -> 0 < b.
Proof.
  intros E. apply Qnot_le_lt. intros Hle.
  change (Qle b (inject_Z 0)) in Hle. apply Qle_bool_iff in Hle. congruence.
Qed.

Lemma total_interest_loop_zero_rate (r M : Q) (fuel : nat) (b acc : Q) :
  r == 0 ->
  exists t, total_interest_loop (Fin r) (Fin M) fuel (Fin b) (Fin acc) = Fin t /\ t == acc.
Proof.
  intros Hr. revert b acc. induction fuel as [|fuel IH]; intros b acc.
  - exists acc. split; reflexivity.
  - cbn [total_interest_loop]. xsimpl. cbn [xleb].
    destruct (Qle_bool (b + - (M + - (b * r))) (inject_Z 0)).
    + eexists. split; [reflexivity|]. rewrite Hr. ring.
    + destruct (IH (b + - (M + - (b * r))) (acc + b * r)) as (t & Ht & Heq).
      exists t. split; [exact Ht|]. rewrite Heq, Hr. ring.
Qed.

Lemma schedule_loop_zero_rate (r M : Q) (fuel m : nat) (b : Q) :
  r == 0 ->
  Forall (fun e => exists a i, Entry.principal e = Fin a /\ Entry.interest e = Fin i
                               /\ a == M /\ i == 0)
         (schedule_loop (Fin r) (Fin M) fuel m (Fin b)).
Proof.
  intros Hr. revert m b. induction fuel as [|fuel IH]; intros m b; cbn [schedule_loop];
    [constructor|].
  xsimpl. constructor.
  - cbn [Entry.principal Entry.interest]. do 2 eexists.
    split; [reflexivity|]. split; [reflexivity|]. rewrite Hr. split; ring.
  - match goal with |- context [if ?c then _ else _] => destruct c end;
      [constructor | apply IH].
Qed.

(** At a zero rate, on finite principal and payment, nothing is charged:
    [calculateTotalInterest] returns 0 and every row of
    [calculateAmortizationSchedule] has interest 0 and the whole payment as
    principal. *)
Theorem zero_rate_no_interest (P A M : Q) (n : nat) :
  A == 0 ->
  (exists t, calculateTotalInterest (params (Fin P) (Fin A) n) (Fin M) = Fin t /\ t == 0)
  /\ Forall (fun e => exists a i, Entry.principal e = Fin a /\ Entry.interest e = Fin i
                                  /\ a == M /\ i == 0)
            (calculateAmortizationSchedule (params (Fin P) (Fin A) n) (Fin M)).
Proof.
  intros HA. split.
  - unfold calculateTotalInterest. xsimpl. rewrite !xdiv_fin by (compute; discriminate).
    apply total_interest_loop_zero_rate. rewrite HA. reflexivity.
  - unfold calculateAmortizationSchedule. xsimpl. rewrite !xdiv_fin by (compute; discriminate).
    apply schedule_loop_zero_rate. rewrite HA. reflexivity.
Qed.

Lemma zero_rate_no_interest_witness :
  0 == 0
  /\ (exists t, calculateTotalInterest (params (Fin 12000) (Fin 0) 12) (Fin 1000) = Fin t /\ t == 0)
  /\ Forall (fun e => exists a i, Entry.principal e = Fin a /\ Entry.interest e = Fin i
                                  /\ a == 1000 /\ i == 0)
            (calculateAmortizationSchedule (params (Fin 12000) (Fin 0) 12) (Fin 1000)).
Proof. split; [reflexivity|]. apply zero_rate_no_interest. reflexivity. Defined.

Lemma total_interest_loop_nonneg (r M : Q) (fuel : nat) (b acc : Q) :
  0 <= r -> 0 <= b ->
  exists t, total_interest_loop (Fin r) (Fin M) fuel (Fin b) (Fin acc) = Fin t /\ acc <= t.
Proof.
  intros Hr. revert b acc. induction fuel as [|fuel IH]; intros b acc Hb.
  - exists acc. split; [reflexivity | apply Qle_refl].
  - cbn [total_interest_loop]. xsimpl. cbn [xleb].
    destruct (Qle_bool (b + - (M + - (b * r))) (inject_Z 0)) eqn:E.
    + eexists. split; [reflexivity|]. nra.
    + apply Qle_bool_false_lt in E.
      destruct (IH (b + - (M + - (b * r))) (acc + b * r) ltac:(lra)) as (t & Ht & Hle).
      exists t. split; [exact Ht|]. nra.
Qed.

Lemma schedule_loop_interest_nonneg (r M : Q) (fuel m : nat) (b : Q) :
  0 <= r -> 0 <= b ->
  Forall (fun e => exists i, Entry.interest e = Fin i /\ 0 <= i)
         (schedule_loop (Fin r) (Fin M) fuel m (Fin b)).
Proof.
  intros Hr. revert m b. induction fuel as [|fuel IH]; intros m b Hb; cbn [schedule_loop];
    [constructor|].
  xsimpl. constructor.
  - cbn [Entry.interest]. eexists. split; [reflexivity|]. nra.
  - cbn [xleb]. destruct (Qle_bool (b + - (M + - (b * r))) (inject_Z 0)) eqn:E;
      [constructor|].
    apply Qle_bool_false_lt in E. apply IH. lra.
Qed.

(** For a principal and a rate that are not negative, and any finite
    payment, no interest is negative: the total of [calculateTotalInterest]
    and the interest of every row of [calculateAmortizationSchedule] are
    [>= 0] (the loops go on only while the balance is positive). *)
Theorem interest_nonneg (P A M : Q) (n : nat) :
  0 <= P -> 0 <= A ->
  (exists t, calculateTotalInterest (params (Fin P) (Fin A) n) (Fin M) = Fin t /\ 0 <= t)
  /\ Forall (fun e => exists i, Entry.interest e = Fin i /\ 0 <= i)
            (calculateAmortizationSchedule (params (Fin P) (Fin A) n) (Fin M)).
Proof.
  intros HP HA. split.
  - unfold calculateTotalInterest. xsimpl. rewrite !xdiv_fin by (compute; discriminate).
    rewrite <- Qdiv_12_100.
    exact (total_interest_loop_nonneg _ M n P (inject_Z 0) (rate_nonneg A HA) HP).
  - unfold calculateAmortizationSchedule. xsimpl. rewrite !xdiv_fin by (compute; discriminate).
    exact (schedule_loop_interest_nonneg _ M n 1 P (rate_nonneg A HA) HP).
Qed.

Lemma interest_nonneg_witness :
  0 <= 12000 /\ 0 <= 6
  /\ (exists t, calculateTotalInterest (params (Fin 12000) (Fin 6) 12) (Fin 500) = Fin t /\ 0 <= t)
  /\ Forall (fun e => exists i, Entry.interest e = Fin i /\ 0 <= i)
            (calculateAmortizationSchedule (params (Fin 12000) (Fin 6) 12) (Fin 500)).
Proof.
  split; [discriminate|]. split; [discriminate|].
  apply interest_nonneg; discriminate.
Defined.

(** ** Payments that do not cover the interest *)

Lemma schedule_loop_underpay (r M : Q) (fuel m : nat) (b : Q) :
  0 <= r -> 0 < b -> M <= b * r ->
  let s := schedule_loop (Fin r) (Fin M) fuel m (Fin b) in
  length s = fuel
  /\ Forall (fun e => exists q, Entry.remainingBalance e = Fin q /\ b <= q) s.
Proof.
  intros Hr. revert m b. induction fuel as [|fuel IH]; intros m b Hb HM; cbn zeta.
  - split; [reflexivity | constructor].
  - cbn [schedule_loop]. xsimpl. cbn [xleb].
    set (b' := b + - (M + - (b * r))).
    assert (Hge : b <= b') by (unfold b'; lra).
    replace (Qle_bool b' (inject_Z 0)) with false
      by (symmetry; apply not_true_iff_false; intros E; apply Qle_bool_iff in E;
          change (b' <= 0) in E; lra).
    destruct (IH (S m) b' ltac:(lra) ltac:(unfold b' in *; nra)) as [Hlen Hall].
    cbn [length Entry.remainingBalance]. split; [rewrite Hlen; reflexivity|].
    constructor.
    + unfold xmax. cbn [xleb].
      replace (Qle_bool (inject_Z 0) b') with true
        by (symmetry; apply Qle_bool_iff; change (0 <= b'); lra).
      exists b'. split; [reflexivity | exact Hge].
    + eapply Forall_impl; [|exact Hall].
      intros e (q & Hq & Hle). exists q. split; [exact Hq | lra].
Qed.

(** When the payment is at most the first month's interest
    [principal * annualRate / 100 / 12] (principal > 0, rate >= 0), the
    loan is never paid off: [calculateAmortizationSchedule] runs all
    [termMonths] months and every row's [remainingBalance] is at least the
    principal. *)
Theorem schedule_never_pays_off (P A M : Q) (n : nat) :
  0 < P -> 0 <= A -> M <= P * (A / 100 / 12) ->
  let s := calculateAmortizationSchedule (params (Fin P) (Fin A) n) (Fin M) in
  length s = n
  /\ Forall (fun e => exists q, Entry.remainingBalance e = Fin q /\ P <= q) s.
Proof.
  intros HP HA HM. rewrite <- Qdiv_12_100 in HM.
  unfold calculateAmortizationSchedule. xsimpl. rewrite !xdiv_fin by (compute; discriminate).
  exact (schedule_loop_underpay _ M n 1 P (rate_nonneg A HA) HP HM).
Qed.

Lemma schedule_never_pays_off_witness :
  let s := calculateAmortizationSchedule (params (Fin 12000) (Fin 6) 24) (Fin 60) in
  length s = 24%nat
  /\ Forall (fun e => exists q, Entry.remainingBalance e = Fin q /\ 12000 <= q) s.
Proof. apply schedule_never_pays_off; [reflexivity | discriminate | discriminate]. Defined.

(** ** Break-even edge cases *)



(** ** Recasting without an extra payment *)

Lemma xsub_lit_0 (x : xnum) : (x - lit 0)%js = x.
Proof.
  destruct x as [p| | |]; try reflexivity.
  cbn [sub lit xnum_arith xsub xadd xneg]. rewrite Qplus_opp_0. reflexivity.
Qed.

(** With no extra payment, or one that is 0 or NaN ([extraPayment || 0]),
    [calculateRecastPayment] is [calculateMonthlyPayment] on the same loan,
    whatever the other arguments. *)
Theorem recast_without_extra (P A : xnum) (n : nat) (E : option xnum) :
  E = None \/ E = Some NaN \/ (exists q, E = Some (Fin q) /\ q == 0) ->
  calculateRecastPayment
    {| principal := P; annualRate := A; termMonths := n; extraPayment := E |}
  = calculateMonthlyPayment (params P A n).
Proof.
  intros HE. unfold calculateRecastPayment. cbn [extraPayment principal annualRate termMonths].
  replace (match E with Some e => if truthy e then e else lit 0 | None => lit 0 end)
    with (lit 0 : xnum).
  - rewrite xsub_lit_0. reflexivity.
  - destruct HE as [-> | [-> | (q & -> & Hq)]]; try reflexivity.
    cbn [truthy xnum_arith xtruthy].
    replace (Qeq_bool q 0) with true by (symmetry; apply Qeq_bool_iff; exact Hq).
    reflexivity.
Qed.

Lemma recast_without_extra_witness :
  calculateRecastPayment
    {| principal := Fin 300000; annualRate := Fin 6; termMonths := 360;
       extraPayment := Some (Fin 0) |}
  = calculateMonthlyPayment (params (Fin 300000) (Fin 6) 360).
Proof.
  apply recast_without_extra. right. right. exists 0. split; reflexivity.
Defined.

(** ** The schedule at the payment of [calculateMonthlyPayment] *)

(** The interest parts of the rows: the payments made minus the principal
    repaid. *)
Lemma sum_interest_loop (r M : Q) (fuel m : nat) (b acc : Q) :
  let s := schedule_loop (Fin r) (Fin M) fuel m (Fin b) in
  exists t,
    fold_left (fun s e => (s + Entry.interest e)%js) s (Fin acc) = Fin t
    /\ t == acc + inject_Z (Z.of_nat (length s)) * M - (b - final_balance r M fuel b).
Proof.
  revert m b acc. induction fuel as [|fuel IH]; intros m b acc; cbn zeta.
  - exists acc. split; [reflexivity|]. cbn [final_balance length]. simpl. ring.
  - cbn [schedule_loop final_balance]. xsimpl. cbn [xleb].
    destruct (Qle_bool (b + - (M + - (b * r))) (inject_Z 0)).
    + cbn [fold_left Entry.interest length]. xsimpl.
      eexists. split; [reflexivity|]. simpl. ring.
    + cbn [fold_left Entry.interest length]. xsimpl.
      destruct (IH (S m) (b + - (M + - (b * r))) (acc + b * r)) as (t & Ht & Heq).
      exists t. split; [exact Ht|]. rewrite Heq.
      rewrite Nat2Z.inj_succ, <- Z.add_1_r, inject_Z_plus. ring.
Qed.


Section AnnuitySchedule.
Variables (P r : Q) (n : nat).
Hypotheses (HP : 0 < P) (Hr : 0 < r) (Hn : (1 <= n)%nat).

Let X := 1 + r.
Let D := qpow X n - 1.

(** [Math.max(0, b)] of a balance equal to 0. *)
Lemma max0_zero (b : Q) : b == 0 -> exists q, xmax (Fin (inject_Z 0)) (Fin b) = Fin q /\ q == 0.
Proof.
  intros Hb. unfold xmax. cbn [xleb].
  destruct (Qle_bool (inject_Z 0) b); eexists; split; try reflexivity; exact Hb.
Qed.

Lemma annuity_schedule (j k m : nat) (b : Q) :
  (k + j = n)%nat ->
  b == P * (qpow X n - qpow X k) / D ->
  let s := schedule_loop (Fin r) (Fin (qpayment P r n)) j m (Fin b) in
  length s = j
  /\ ((1 <= j)%nat ->
      exists s' e q, s = s' ++ [e] /\ Entry.remainingBalance e = Fin q /\ q == 0).
Proof.
  pose proof (annuity_D_pos r n Hr Hn) as HD. fold X D in HD.
  revert k m b. induction j as [|j IH]; intros k m b Hkj Hb; cbn zeta.
  - split; [reflexivity | lia].
  - cbn [schedule_loop]. xsimpl. cbn [xleb].
    pose proof (annuity_step P r n Hr Hn k b Hb) as Hb'. fold X D in Hb'.
    set (b' := b + - (qpayment P r n + - (b * r))) in *.
    set (row := Entry.mk m (Fin (qpayment P r n)) (Fin (qpayment P r n + - (b * r)))
                  (Fin (b * r)) (xmax (Fin (inject_Z 0)) (Fin b'))).
    assert (Hlast : j = 0%nat -> exists q, Entry.remainingBalance row = Fin q /\ q == 0).
    { intros ->. apply max0_zero. rewrite Hb'. replace (S k) with n by lia.
      unfold Qdiv. ring. }
    destruct (Qle_bool b' (inject_Z 0)) eqn:E.
    + destruct j as [|j].
      * split; [reflexivity|]. intros _.
        destruct (Hlast eq_refl) as (q & Hq & Hq0).
        exists [], row, q. split; [reflexivity|]. split; [exact Hq | exact Hq0].
      * exfalso. apply Qle_bool_iff in E. rewrite Hb' in E.
        assert (Hlt : qpow X (S k) < qpow X n)
          by (apply qpow_lt_mono; [unfold X; lra | lia]).
        assert (Hpos : 0 < P * (qpow X n - qpow X (S k)) / D).
        { unfold Qdiv. apply Qmult_lt_0_compat; [apply Qmult_lt_0_compat|];
            [exact HP | lra | apply Qinv_lt_0_compat; exact HD]. }
        change (P * (qpow X n - qpow X (S k)) / D <= 0) in E. lra.
    + destruct (IH (S k) (S m) b' ltac:(lia) Hb') as [Hlen Hl].
      cbn [length]. split; [rewrite Hlen; reflexivity|]. intros _.
      destruct j as [|j].
      * destruct (Hlast eq_refl) as (q & Hq & Hq0).
        destruct (schedule_loop (Fin r) (Fin (qpayment P r n)) 0 (S m) (Fin b')) eqn:Es;
          [|discriminate].
        exists [], row, q. split; [reflexivity|]. split; [exact Hq | exact Hq0].
      * destruct (Hl ltac:(lia)) as (s' & e & q & Hs & Hq & Hq0).
        exists (row :: s'), e, q. rewrite Hs. split; [reflexivity|]. split; assumption.
Qed.

End AnnuitySchedule.



(** With that payment [M], [calculateTotalInterest] is what the borrower
    pays beyond the principal: [termMonths * M - principal]. *)
Theorem total_interest_of_computed_payment (P A : Q) (n : nat) :
  0 < P -> 0 < A -> (1 <= n)%nat ->
  let p := params (Fin P) (Fin A) n in
  exists M t,
    calculateMonthlyPayment p = Fin M
    /\ calculateTotalInterest p (Fin M) = Fin t
    /\ t == inject_Z (Z.of_nat n) * M - P.
Proof.
  intros HP HA Hn p. pose proof (rate_pos A HA) as Hr.
  exists (qpayment P (A / 12 / 100) n).
  assert (Hpay : calculateMonthlyPayment p = Fin (qpayment P (A / 12 / 100) n))
    by exact (monthly_payment_fin P A n HA Hn).
  rewrite total_interest_consistent_exact.
  unfold p, calculateAmortizationSchedule, sum_field. xsimpl.
  rewrite !xdiv_fin by (compute; discriminate).
  set (r := A / inject_Z 12 / inject_Z 100) in *.
  destruct (annuity_schedule P r n HP Hr Hn n 0 1 P ltac:(lia)) as [Hlen _].
  { change (qpow (1 + r) 0) with 1.
    pose proof (annuity_D_pos r n Hr Hn).
    field. intros E. lra. }
  destruct (sum_interest_loop r (qpayment P r n) n 1 P 0) as (t & Ht & Heq).
  exists t. split; [exact Hpay|]. split; [exact Ht|].
  rewrite Heq, Hlen, (annuity_pays_off P r n HP Hr Hn).
  change (A / 12 / 100) with r. ring.
Qed.

Lemma total_interest_of_computed_payment_witness :
  let p := params (Fin 12000) (Fin 6) 12 in
  exists M t,
    calculateMonthlyPayment p = Fin M
    /\ calculateTotalInterest p (Fin M) = Fin t
    /\ t == inject_Z (Z.of_nat 12) * M - 12000.
Proof. apply total_interest_of_computed_payment; [reflexivity | reflexivity | lia]. Defined.

(** ** [calculateMortgageOptions] *)

(** Opens the [Some] branch of [calculateMortgageOptions] in [HR]. *)
Ltac open_options HR :=
  unfold calculateMortgageOptions in HR;
  match type of HR with
  | context [if ?c then _ else _] =>
      let G := fresh "G" in destruct c eqn:G; cbn [fst] in HR; [discriminate HR|]
  end;
  match type of HR with
  | _ = Some ?R =>
      apply (f_equal (fun o => match o with Some x => x | None => R end)) in HR;
      cbn beta iota in HR; subst R
  end.



(** The monthly payment typed in the form never changes the results:
    [calculateMortgageOptions] only reads it to decide whether to write the
    computed current payment into the form, which it does exactly when the
    field is falsy (empty or 0). *)
Theorem entered_payment_not_used (T : Type) (J : JSArith T) (K : JSMath T)
    (v : FormSchema T) (x : T) :
  fst (calculateMortgageOptions (assign_monthlyPayment v x)) = fst (calculateMortgageOptions v)
  /\ (truthy (monthlyPayment v) = true -> snd (calculateMortgageOptions v) = None)
  /\ (truthy (monthlyPayment v) = false ->
      forall R, fst (calculateMortgageOptions v) = Some R ->
      snd (calculateMortgageOptions v) = Some (Loan.monthlyPayment (Results.current R))).
Proof.
  split; [|split].
  - unfold calculateMortgageOptions, assign_monthlyPayment. cbn zeta.
    cbn [currentBalance currentRate monthlyPayment remainingTerm newRate lumpSum
         refinanceClosingCosts].
    destruct (_ || _ || _); reflexivity.
  - intros Hm. unfold calculateMortgageOptions. cbn zeta. rewrite Hm.
    destruct (_ || _ || _); reflexivity.
  - intros Hm R HR. pose proof HR as HR'. open_options HR'.
    unfold calculateMortgageOptions. rewrite G. cbn zeta. rewrite Hm. reflexivity.
Qed.

(** With the new rate equal to the current rate and a lump sum that is
    truthy or 0, the refinance option is the recast option: same payment,
    same total interest, same schedule. *)
Theorem same_rate_refinance_is_recast (T : Type) (J : JSArith T) (K : JSMath T)
    (v : FormSchema T) :
  newRate v = currentRate v ->
  truthy (lumpSum v) = true \/ lumpSum v = lit 0 ->
  forall R, fst (calculateMortgageOptions v) = Some R -> Results.refinance R = Results.recast R.
Proof.
  intros Hrate HL R HR. open_options HR.
  cbn [Results.refinance Results.recast].
  unfold calculateRecastPayment. cbn [extraPayment principal annualRate termMonths].
  change (if truthy (lumpSum v) then lumpSum v else lit 0) with (or0 (lumpSum v)).
  assert (Hor : or0 (lumpSum v) = lumpSum v).
  { unfold or0. destruct HL as [Ht | ->]; [rewrite Ht; reflexivity|].
    destruct (truthy (lit 0)); reflexivity. }
  rewrite Hor, Hrate. reflexivity.
Qed.

Lemma same_rate_refinance_is_recast_witness :
  let v := {| currentBalance := Fin 300000; currentRate := Fin 6; monthlyPayment := Fin 0;
              remainingTerm := 12; propertyValue := Fin 400000; newRate := Fin 6;
              lumpSum := Fin 50000; plannedStayYears := Fin 30;
              refinanceClosingCosts := None; recastFee := Fin 250;
              alternativeInvestmentReturn := Fin 7 |} in
  (exists R, fst (calculateMortgageOptions v) = Some R)
  /\ forall R, fst (calculateMortgageOptions v) = Some R -> Results.refinance R = Results.recast R.
Proof.
  intros v. split; [eexists; reflexivity|].
  apply same_rate_refinance_is_recast; [reflexivity|]. left. reflexivity.
Defined.

Lemma or0_fin (q : Q) : exists q', or0 (Fin q) = Fin q' /\ q' == q.
Proof.
  unfold or0. cbn [truthy xnum_arith xtruthy lit].
  destruct (Qeq_bool q 0) eqn:E; cbn [negb]; eexists; split; try reflexivity.
  apply Qeq_bool_iff in E. rewrite E. reflexivity.
Qed.

(** For admissible fees, the sum of [calculateMortgageOptions] and the sum
    of the break-even card are the same finite number [>= 0]. *)
Lemma closing_totals (c : option (ClosingCosts xnum)) :
  fees_nonneg c ->
  exists s s', totalClosingCosts c = Fin s /\ breakEvenCardClosingCosts c = Fin s'
               /\ 0 <= s /\ s' == s.
Proof.
  destruct c as [cc|]; cbn [fees_nonneg].
  - intros Hf.
    repeat match goal with H : Forall _ (_ :: _) |- _ => inversion_clear H end.
    repeat match goal with H : exists q, _ = Fin q /\ _ |- _ =>
      let q := fresh "q" in let Hq := fresh "Hq" in let Hq0 := fresh "Hq0" in
      destruct H as (q & Hq & Hq0) end.
    unfold totalClosingCosts, breakEvenCardClosingCosts, fee. cbn [fold_left].
    repeat match goal with H : ?f cc = Fin _ |- _ => rewrite H; clear H end.
    repeat match goal with |- context [or0 (Fin ?q)] =>
      let q' := fresh "q'" in let E := fresh "E" in let Eq := fresh "Eq" in
      destruct (or0_fin q) as (q' & E & Eq); rewrite E; clear E end.
    xsimpl. do 2 eexists. split; [reflexivity|]. split; [reflexivity|].
    split; [lra | ring].
  - intros _. do 2 eexists. split; [reflexivity|]. split; [reflexivity|].
    split; [discriminate | reflexivity].
Qed.

(** The closing costs used for the break-even come from the fees, but
    fall back on 3% of the balance when the fees add up to 0, while the
    break-even card shows the fees' sum: for admissible fees, when the card
    shows 0 the break-even is computed with [balance * 0.03], otherwise with
    the amount the card shows. *)
Theorem refinance_closing_costs_fallback (v : FormSchema xnum) (b : Q) :
  currentBalance v = Fin b ->
  fees_nonneg (refinanceClosingCosts v) ->
  forall R, fst (calculateMortgageOptions v) = Some R ->
  exists s, breakEvenCardClosingCosts (refinanceClosingCosts v) = Fin s /\ 0 <= s
    /\ (s == 0 -> Results.closingCosts R = Fin (b * (3 / 100)))
    /\ (0 < s -> exists q, Results.closingCosts R = Fin q /\ q == s).
Proof.
  intros Hb Hf R HR. open_options HR. cbn [Results.closingCosts].
  destruct (closing_totals _ Hf) as (s & s' & Hs & Hs' & Hs0 & Heq).
  exists s'. split; [exact Hs'|]. split; [lra|].
  rewrite Hs. cbn [truthy xnum_arith xtruthy]. split.
  - intros Hz. replace (Qeq_bool s 0) with true by (symmetry; apply Qeq_bool_iff; lra).
    rewrite Hb. reflexivity.
  - intros Hp. rewrite Qeq_bool_false by lra. exists s. split; [reflexivity | lra].
Qed.

Lemma refinance_closing_costs_fallback_witness :
  let v := {| currentBalance := Fin 300000; currentRate := Fin 6; monthlyPayment := Fin 0;
              remainingTerm := 12; propertyValue := Fin 400000; newRate := Fin 5;
              lumpSum := Fin 0; plannedStayYears := Fin 30;
              refinanceClosingCosts :=
                Some {| titleInsurance := Fin 0; appraisalFee := Fin 0;
                        originationFee := Fin 0; recordingFees := Fin 0; otherFees := Fin 0 |};
              recastFee := Fin 250; alternativeInvestmentReturn := Fin 7 |} in
  (exists R, fst (calculateMortgageOptions v) = Some R)
  /\ forall R, fst (calculateMortgageOptions v) = Some R ->
     exists s, breakEvenCardClosingCosts (refinanceClosingCosts v) = Fin s /\ 0 <= s
       /\ (s == 0 -> Results.closingCosts R = Fin (300000 * (3 / 100)))
       /\ (0 < s -> exists q, Results.closingCosts R = Fin q /\ q == s).
Proof.
  intros v. split; [eexists; reflexivity|].
  apply refinance_closing_costs_fallback; [reflexivity|].
  cbn [fees_nonneg v refinanceClosingCosts].
  repeat constructor; eexists; split; try reflexivity; discriminate.
Defined.


(** The refinance at the current rate with no lump sum saves nothing each
    month: for a positive balance and rate, a term of at least a month and
    admissible fees, the break-even is [Infinity] months. *)
Theorem same_rate_break_even_infinite (v : FormSchema xnum) (b a : Q) :
  currentBalance v = Fin b -> currentRate v = Fin a -> newRate v = Fin a ->
  lumpSum v = Fin 0 -> 0 < b -> 0 < a -> (1 <= remainingTerm v)%nat ->
  fees_nonneg (refinanceClosingCosts v) ->
  exists R, fst (calculateMortgageOptions v) = Some R /\ Results.breakEven R = PInf.
Proof.
  intros Hb Ha Hnr Hl HbP HaP Hn Hf.
  assert (G : (negb (truthy (currentBalance v)) || negb (truthy (currentRate v))
               || Nat.eqb (remainingTerm v) 0) = false).
  { rewrite Hb, Ha. cbn [truthy xnum_arith xtruthy].
    rewrite !Qeq_bool_false by lra. destruct (remainingTerm v); [lia | reflexivity]. }
  unfold calculateMortgageOptions. rewrite G. cbn zeta. cbn [fst].
  eexists. split; [reflexivity|]. cbn [Results.breakEven].
  destruct (closing_totals _ Hf) as (s & s' & Hs & _ & Hs0 & _). rewrite Hs.
  rewrite Hb, Ha, Hnr, Hl.
  change (Fin b - or0 (Fin 0))%js with (Fin b - lit 0)%js. rewrite xsub_lit_0.
  rewrite (monthly_payment_fin b a _ HaP Hn).
  set (M := qpayment b (a / 12 / 100) (remainingTerm v)).
  assert (HC : exists c, (if truthy (Fin s) then Fin s
                          else (Fin b * REFINANCE_CLOSING_COSTS_PERCENTAGE)%js) = Fin c /\ 0 < c).
  { cbn [truthy xnum_arith xtruthy REFINANCE_CLOSING_COSTS_PERCENTAGE div mul lit].
    destruct (Qeq_bool s 0) eqn:E; cbn [negb].
    - rewrite xdiv_fin by (compute; discriminate). cbn [xmul].
      eexists. split; [reflexivity|]. apply Qmult_lt_0_compat; [exact HbP | reflexivity].
    - eexists. split; [reflexivity|].
      apply Qle_lt_or_eq in Hs0. destruct Hs0 as [Hs0 | Hs0]; [exact Hs0|].
      exfalso. symmetry in Hs0. apply Qeq_bool_iff in Hs0. congruence. }
  destruct HC as (c & -> & Hc).
  unfold calculateBreakEvenMonths. xsimpl. unfold xdiv.
  replace (Qeq_bool (M + - M) 0) with true by (symmetry; apply Qeq_bool_iff; ring).
  rewrite Qeq_bool_false by lra.
  replace (Qle_bool c 0) with false
    by (symmetry; apply not_true_iff_false; intros E; apply Qle_bool_iff in E; lra).
  reflexivity.
Qed.

Lemma same_rate_break_even_infinite_witness :
  let v := {| currentBalance := Fin 300000; currentRate := Fin 6; monthlyPayment := Fin 0;
              remainingTerm := 12; propertyValue := Fin 400000; newRate := Fin 6;
              lumpSum := Fin 0; plannedStayYears := Fin 30;
              refinanceClosingCosts :=
                Some {| titleInsurance := Fin 1000; appraisalFee := Fin 500;
                        originationFee := Fin 0; recordingFees := Fin 0; otherFees := Fin 0 |};
              recastFee := Fin 250; alternativeInvestmentReturn := Fin 7 |} in
  exists R, fst (calculateMortgageOptions v) = Some R /\ Results.breakEven R = PInf.
Proof.
  intros v. apply (same_rate_break_even_infinite v 300000 6);
    try reflexivity; try (cbn; lia).
  cbn [fees_nonneg v refinanceClosingCosts].
  repeat constructor; eexists; split; try reflexivity; discriminate.
Defined.





(** ** Scenarios *)

Section ScenarioFacts.
Context {D : Type}.
Implicit Types (st : ScenarioState D) (l : list (Scenario.t D)) (s : Scenario.t D).

Lemma has_id_iff (i : string) s : has_id i s = true <-> Scenario.id s = i.
Proof. unfold has_id. apply String.eqb_eq. Qed.

Lemma has_id_self s : has_id (Scenario.id s) s = true.
Proof. apply has_id_iff. reflexivity. Qed.

Lemma save_active_ids st : map Scenario.id (save_active st) = map Scenario.id (scenarios st).
Proof.
  unfold save_active. rewrite map_map. apply map_ext. intros s.
  destruct (has_id _ s); reflexivity.
Qed.

Lemma nodup_id_unique l x y :
  NoDup (map Scenario.id l) -> In x l -> In y l -> Scenario.id x = Scenario.id y -> x = y.
Proof.
  induction l as [|z l IH]; intros Hnd Hx Hy Hxy; [destruct Hx|].
  cbn [map] in Hnd. inversion_clear Hnd as [|? ? Hz Hnd'].
  destruct Hx as [<- | Hx], Hy as [<- | Hy]; try reflexivity.
  - exfalso. apply Hz. rewrite Hxy. apply in_map. exact Hy.
  - exfalso. apply Hz. rewrite <- Hxy. apply in_map. exact Hx.
  - apply IH; assumption.
Qed.

Lemma find_unique l s :
  NoDup (map Scenario.id l) -> In s l -> find (has_id (Scenario.id s)) l = Some s.
Proof.
  intros Hnd Hs. destruct (find (has_id (Scenario.id s)) l) as [y|] eqn:E.
  - apply find_some in E as [Hy Hid]. apply has_id_iff in Hid.
    f_equal. apply (nodup_id_unique l); assumption.
  - exfalso. pose proof (find_none _ _ E s Hs) as H. rewrite has_id_self in H. discriminate.
Qed.

Lemma filter_keeps_all (i : string) l :
  ~ In i (map Scenario.id l) -> filter (fun s => negb (has_id i s)) l = l.
Proof.
  induction l as [|s l IH]; intros Hi; [reflexivity|].
  cbn [filter]. cbn [map] in Hi.
  destruct (has_id i s) eqn:E.
  - exfalso. apply Hi. left. apply has_id_iff. exact E.
  - cbn [negb]. rewrite IH; [reflexivity|]. intros H. apply Hi. right. exact H.
Qed.

(** With unique ids, deleting one id removes at most one scenario. *)
Lemma filter_length_nodup (i : string) l :
  NoDup (map Scenario.id l) ->
  (length l <= S (length (filter (fun s => negb (has_id i s)) l)))%nat.
Proof.
  induction l as [|s l IH]; intros Hnd; cbn [filter length]; [lia|].
  cbn [map] in Hnd. inversion_clear Hnd as [|? ? Hs Hnd'].
  destruct (has_id i s) eqn:E; cbn [negb length].
  - apply has_id_iff in E. rewrite filter_keeps_all by (rewrite <- E; exact Hs). lia.
  - specialize (IH Hnd'). lia.
Qed.

Lemma filter_ids (i : string) l :
  map Scenario.id (filter (fun s => negb (has_id i s)) l)
  = filter (fun x => negb (String.eqb x i)) (map Scenario.id l).
Proof. rewrite filter_map_swap. reflexivity. Qed.


End ScenarioFacts.

(** The handlers reachable from [ScenarioTabs] keep two invariants: no two
    scenarios share an id and the active id is one of theirs (provided
    [uuidv4] returns a new id); in such a state the guarded delete never
    throws. *)
Theorem scenario_handlers_keep_ids (D : Type) (st : ScenarioState D) :
  scenarios_ok st ->
  (forall newId defaults cloneFrom,
     ~ In newId (map Scenario.id (scenarios st)) ->
     scenarios_ok (handleScenarioAdd newId defaults cloneFrom st))
  /\ (forall i, exists st', tabsHandleDelete i st = Some st' /\ scenarios_ok st')
  /\ (forall i, scenarios_ok (handleScenarioChange i st))
  /\ (forall i newName, scenarios_ok (handleScenarioRename i newName st)).
Proof.
  intros [Hnd Hin]. split; [|split; [|split]].
  - intros newId defaults cloneFrom Hnew. unfold handleScenarioAdd, scenarios_ok.
    cbn [scenarios activeScenarioId Scenario.id]. rewrite map_app, save_active_ids.
    cbn [map Scenario.id]. split.
    + apply NoDup_app; [exact Hnd | repeat constructor; intros [] |].
      intros a Ha [<- | []]. contradiction.
    + apply in_or_app. right. left. reflexivity.
  - intros i. unfold tabsHandleDelete.
    destruct (Nat.ltb 1 (length (scenarios st))) eqn:Elen; [|exists st; split; [reflexivity | split; assumption]].
    apply Nat.ltb_lt in Elen. unfold handleScenarioDelete.
    pose proof (filter_length_nodup i (scenarios st) Hnd) as Hlen.
    assert (Hnd' : NoDup (map Scenario.id (filter (fun s => negb (has_id i s)) (scenarios st))))
      by (rewrite filter_ids; apply NoDup_filter; exact Hnd).
    destruct (String.eqb i (activeScenarioId st)) eqn:Ei.
    + destruct (filter (fun s => negb (has_id i s)) (scenarios st)) as [|s rest] eqn:Ef.
      * cbn [length] in Hlen. lia.
      * eexists. split; [reflexivity|]. unfold scenarios_ok. cbn [scenarios activeScenarioId].
        split; [exact Hnd'|]. left. reflexivity.
    + eexists. split; [reflexivity|]. unfold scenarios_ok. cbn [scenarios activeScenarioId].
      split; [exact Hnd'|]. rewrite filter_ids. apply filter_In. split; [exact Hin|].
      rewrite String.eqb_sym, Ei. reflexivity.
  - intros i. unfold handleScenarioChange.
    destruct (find (has_id i) (scenarios st)) as [sc|] eqn:E; [|split; assumption].
    apply find_some in E as [Hsc Hid]. apply has_id_iff in Hid.
    unfold scenarios_ok. cbn [scenarios activeScenarioId]. rewrite save_active_ids.
    split; [exact Hnd|]. rewrite <- Hid. apply in_map. exact Hsc.
  - intros i newName. unfold handleScenarioRename, scenarios_ok. cbn [scenarios activeScenarioId].
    assert (Hids : map Scenario.id
                     (map (fun s => if has_id i s
                                    then Scenario.mk (Scenario.id s) newName (Scenario.data s)
                                    else s) (scenarios st))
                   = map Scenario.id (scenarios st)).
    { rewrite map_map. apply map_ext. intros s. destruct (has_id i s); reflexivity. }
    rewrite Hids. split; assumption.
Qed.

Lemma scenario_handlers_keep_ids_witness :
  let st := {| scenarios := [Scenario.mk "a" "Scenario 1" 1%nat; Scenario.mk "b" "Scenario 2" 2%nat];
               activeScenarioId := "a"; formValues := 3%nat |} in
  scenarios_ok st
  /\ (forall newId defaults cloneFrom,
        ~ In newId (map Scenario.id (scenarios st)) ->
        scenarios_ok (handleScenarioAdd newId defaults cloneFrom st))
  /\ (forall i, exists st', tabsHandleDelete i st = Some st' /\ scenarios_ok st')
  /\ (forall i, scenarios_ok (handleScenarioChange i st))
  /\ (forall i newName, scenarios_ok (handleScenarioRename i newName st)).
Proof.
  intros st.
  assert (Hok : scenarios_ok st).
  { split; [|left; reflexivity]. cbn.
    constructor; [intros [H | []]; discriminate | constructor; [intros [] | constructor]]. }
  split; [exact Hok|]. apply scenario_handlers_keep_ids. exact Hok.
Defined.

(** [handleScenarioDelete] itself throws exactly when the deleted id is the
    active one and every scenario has that id (for unique ids: when the
    active scenario is the only one); the guard of [ScenarioTabs] is what
    keeps it from being called then. *)
Theorem delete_throws_iff (D : Type) (i : string) (st : ScenarioState D) :
  handleScenarioDelete i st = None
  <-> i = activeScenarioId st /\ Forall (fun s => Scenario.id s = i) (scenarios st).
Proof.
  unfold handleScenarioDelete.
  destruct (String.eqb i (activeScenarioId st)) eqn:E.
  - apply String.eqb_eq in E.
    destruct (filter (fun s => negb (has_id i s)) (scenarios st)) as [|s rest] eqn:Ef.
    + split; intros _; [|reflexivity]. split; [exact E|].
      apply Forall_forall. intros x Hx.
      destruct (has_id i x) eqn:Ex; [apply has_id_iff; exact Ex|].
      exfalso. assert (Hf : In x (filter (fun s => negb (has_id i s)) (scenarios st)))
        by (apply filter_In; split; [exact Hx | rewrite Ex; reflexivity]).
      rewrite Ef in Hf. destruct Hf.
    + split; [discriminate|]. intros [_ Hall].
      assert (Hs : In s (filter (fun s => negb (has_id i s)) (scenarios st)))
        by (rewrite Ef; left; reflexivity).
      apply filter_In in Hs as [Hs Hneg].
      rewrite Forall_forall in Hall. specialize (Hall s Hs).
      apply has_id_iff in Hall. rewrite Hall in Hneg. discriminate.
  - split; [discriminate|]. intros [Hi _]. subst i. rewrite String.eqb_refl in E. discriminate.
Qed.

(** Cloning the active scenario copies what was last saved for it, not the
    values on screen: the new scenario, appended last under the name
    [Scenario n+1] and made active, gets the stored data, the form is reset
    to it, and the on-screen values go into the original. *)
Theorem clone_active_copies_saved_data (D : Type) (newId : string) (defaults : D)
    (st : ScenarioState D) (s : Scenario.t D) :
  NoDup (map Scenario.id (scenarios st)) -> In s (scenarios st) ->
  Scenario.id s = activeScenarioId st -> activeScenarioId st <> ""%string ->
  let st' := handleScenarioAdd newId defaults (Some (activeScenarioId st)) st in
  activeScenarioId st' = newId
  /\ formValues st' = Scenario.data s
  /\ scenarios st'
     = save_active st
       ++ [Scenario.mk newId (scenario_name (length (scenarios st) + 1)) (Scenario.data s)]
  /\ In (Scenario.mk (Scenario.id s) (Scenario.name s) (formValues st)) (save_active st).
Proof.
  intros Hnd Hs Hid Hne st'.
  assert (Hfind : find (has_id (activeScenarioId st)) (scenarios st) = Some s)
    by (rewrite <- Hid; apply find_unique; assumption).
  assert (Hc : String.eqb (activeScenarioId st) "" = false) by (apply String.eqb_neq; exact Hne).
  unfold st', handleScenarioAdd. rewrite Hc, Hfind. cbn [scenarios activeScenarioId formValues Scenario.id Scenario.data].
  split; [reflexivity|]. split; [reflexivity|]. split; [reflexivity|].
  unfold save_active.
  apply in_map_iff. exists s. split; [|exact Hs].
  rewrite <- Hid, has_id_self. reflexivity.
Qed.

Lemma clone_active_copies_saved_data_witness :
  let st := {| scenarios := [Scenario.mk "a" "Scenario 1" 1%nat; Scenario.mk "b" "Scenario 2" 2%nat];
               activeScenarioId := "a"; formValues := 3%nat |} in
  let st' := handleScenarioAdd "c" 0%nat (Some (activeScenarioId st)) st in
  activeScenarioId st' = "c"%string
  /\ formValues st' = 1%nat
  /\ scenarios st' = save_active st ++ [Scenario.mk "c" (scenario_name (length (scenarios st) + 1)) 1%nat]
  /\ In (Scenario.mk "a" "Scenario 1" 3%nat) (save_active st).
Proof.
  intros st st'.
  refine (clone_active_copies_saved_data nat "c" 0%nat st (Scenario.mk "a" "Scenario 1" 1%nat)
            _ _ _ _).
  - cbn. constructor; [intros [H | []]; discriminate | constructor; [intros [] | constructor]].
  - left. reflexivity.
  - reflexivity.
  - discriminate.
Defined.




